(** * Motion-search interface of mpgwrite ([search.h])

    A shallow embedding of the macros, constants and prototypes that
    [src/General Use/mpgwrite/src/search.h] declares, and the properties
    of the motion-vector boundary computation that follow from them. *)

From Stdlib Require Import ZArith Lia Bool List String.
Import ListNotations.

Local Open Scope Z_scope.

(** ** C [int] arithmetic

    The macro arguments and the variables the macros assign are C [int]s.
    Signed overflow is undefined in C, so every arithmetic step is checked:
    a result outside the [int] range makes the whole computation undefined
    ([None]).  [int] is taken to be 32 bits wide. *)

Module CInt.

Definition INT_MIN : Z := - 2 ^ 31.
Definition INT_MAX : Z := 2 ^ 31 - 1.

Definition in_int (z : Z) : bool := (INT_MIN <=? z) && (z <=? INT_MAX).

Definition check (z : Z) : option Z := if in_int z then Some z else None.

Definition neg (a : Z) : option Z := check (- a).
Definition add (a b : Z) : option Z := check (a + b).
Definition sub (a b : Z) : option Z := check (a - b).
Definition mul (a b : Z) : option Z := check (a * b).

(** Relational and logical operators yield the [int] 1 or 0. *)
Definition of_bool (b : bool) : Z := if b then 1 else 0.
Definition ge (a b : Z) : Z := of_bool (b <=? a).
Definition lt (a b : Z) : Z := of_bool (a <? b).
Definition eq (a b : Z) : Z := of_bool (a =? b).
(** [a && b]: the operands used here have no side effects, so the short
    circuit is not observable. *)
Definition land (a b : Z) : Z :=
  if a =? 0 then 0 else if b =? 0 then 0 else 1.

Definition bind {A B : Type} (m : option A) (k : A -> option B) : option B :=
  match m with
  | Some a => k a
  | None => None
  end.

End CInt.

Notation "'let*' x ':=' m 'in' k" := (CInt.bind m (fun x => k))
  (at level 10, x name, m at level 100, k at level 200).

(** ** Constants *)

Definition PSEARCH_SUBSAMPLE : Z := 0.
Definition PSEARCH_EXHAUSTIVE : Z := 1.
Definition PSEARCH_LOGARITHMIC : Z := 2.
Definition PSEARCH_TWOLEVEL : Z := 3.

Definition BSEARCH_EXHAUSTIVE : Z := 0.
Definition BSEARCH_CROSS2 : Z := 1.
Definition BSEARCH_SIMPLE : Z := 2.

(** ** Macros *)

(** The four variables [COMPUTE_MOTION_BOUNDARY] assigns and
    [VALID_MOTION] reads from the enclosing scope. *)
Record bounds : Type := mkBounds {
  leftMY : Z;
  leftMX : Z;
  rightMY : Z;
  rightMX : Z
}.

(** The frame dimensions are the globals [Fsize_y] and [Fsize_x], which
    the macro reads; they are declared outside [search.h]. *)
Record frame : Type := mkFrame {
  Fsize_y : Z;
  Fsize_x : Z
}.

Section Macros.

(** [DCTSIZE] is a constant macro defined outside [search.h]. *)
Variable DCTSIZE : Z.

(** [-2*DCTSIZE*v] parses as [((-2)*DCTSIZE)*v]. *)
Definition left_bound (v : Z) : option Z :=
  let* m2 := CInt.neg 2 in
  let* t := CInt.mul m2 DCTSIZE in
  CInt.mul t v.

(** [2*(Fsize - (v+2)*DCTSIZE + 1) - 1] *)
Definition right_bound (Fsize v : Z) : option Z :=
  let* v2 := CInt.add v 2 in
  let* p := CInt.mul v2 DCTSIZE in
  let* d := CInt.sub Fsize p in
  let* d1 := CInt.add d 1 in
  let* e := CInt.mul 2 d1 in
  CInt.sub e 1.

(** [rightMY++] *)
Definition incr (v : Z) : option Z := CInt.add v 1.

Definition COMPUTE_MOTION_BOUNDARY (F : frame) (by_ bx stepSize : Z)
  : option bounds :=
  let* lMY := left_bound by_ in
  let* lMX := left_bound bx in
  let* rMY := right_bound (Fsize_y F) by_ in
  let* rMX := right_bound (Fsize_x F) bx in
  if CInt.eq stepSize 2 =? 0 then
    Some (mkBounds lMY lMX rMY rMX)
  else
    let* rMY' := incr rMY in
    let* rMX' := incr rMX in
    Some (mkBounds lMY lMX rMY' rMX').

End Macros.

(** [VALID_MOTION(y,x)]; a non-zero result means the vector is accepted. *)
Definition VALID_MOTION (b : bounds) (y x : Z) : Z :=
  CInt.land
    (CInt.land
       (CInt.land (CInt.ge y (leftMY b)) (CInt.lt y (rightMY b)))
       (CInt.ge x (leftMX b)))
    (CInt.lt x (rightMX b)).

(** Amount the step size adds to the right bounds. *)
Definition coarse_slack (stepSize : Z) : Z := if stepSize =? 2 then 1 else 0.

(** ** Reference patch of a displaced block

    A block covers the [2*DCTSIZE] rows starting at full-pel row
    [by*DCTSIZE] (and likewise for columns).  Vector components are in
    half-pel units, so row [i] of the block displaced by [v] sits at the
    half-pel coordinate [2*(b*DCTSIZE + i) + v].  Its value is read from
    the full-pel sample [p/2] when [p] is even and interpolated from the
    two neighbours [p/2] (rounded down) and [(p+1)/2] when [p] is odd. *)

Section Patch.

Variable DCTSIZE : Z.

Definition halfpel_pos (b i v : Z) : Z := 2 * (b * DCTSIZE + i) + v.

Definition sample_lo (p : Z) : Z := p / 2.
Definition sample_hi (p : Z) : Z := (p + 1) / 2.

Definition in_frame_1d (Fsize b v : Z) : Prop :=
  forall i, 0 <= i < 2 * DCTSIZE ->
    0 <= sample_lo (halfpel_pos b i v) /\
    sample_hi (halfpel_pos b i v) < Fsize.

Definition patch_in_frame (F : frame) (by_ bx y x : Z) : Prop :=
  in_frame_1d (Fsize_y F) by_ y /\ in_frame_1d (Fsize_x F) bx x.

End Patch.

(** The right bounds of [coarse] are one unit below those of [fine]. *)
Definition right_bounds_tighter_by_one (fine coarse : bounds) : Prop :=
  rightMY coarse = rightMY fine - 1 /\ rightMX coarse = rightMX fine - 1.

(** ** Prototypes

    The declarations as they read once [_ANSI_ARGS_] expands to its
    argument list. *)

Module Proto.

Inductive ctype : Type :=
| Tvoid
| Tchar
| Tint
| Tnamed (name : string)      (* a typedef name: int32, LumBlock, MpegFrame *)
| Tptr (t : ctype).

Record param : Type := mkParam { p_type : ctype; p_name : string }.

Record prototype : Type := mkProto {
  ret : ctype;
  fname : string;
  params : list param
}.

Definition int32 : ctype := Tnamed "int32".
Definition LumBlock : ctype := Tnamed "LumBlock".
Definition MpegFrame : ctype := Tnamed "MpegFrame".

Definition SetPSearchAlg : prototype :=
  mkProto Tvoid "SetPSearchAlg" [mkParam (Tptr Tchar) "alg"].
Definition SetBSearchAlg : prototype :=
  mkProto Tvoid "SetBSearchAlg" [mkParam (Tptr Tchar) "alg"].
Definition BSearchName : prototype := mkProto (Tptr Tchar) "BSearchName" [].
Definition PSearchName : prototype := mkProto (Tptr Tchar) "PSearchName" [].

Definition PLogarithmicSearch : prototype :=
  mkProto int32 "PLogarithmicSearch"
    [mkParam LumBlock "currentBlock"; mkParam (Tptr MpegFrame) "prev";
     mkParam Tint "by"; mkParam Tint "bx";
     mkParam (Tptr Tint) "motionY"; mkParam (Tptr Tint) "motionX"].
Definition PSubSampleSearch : prototype :=
  mkProto int32 "PSubSampleSearch"
    [mkParam LumBlock "currentBlock"; mkParam (Tptr MpegFrame) "prev";
     mkParam Tint "by"; mkParam Tint "bx";
     mkParam (Tptr Tint) "motionY"; mkParam (Tptr Tint) "motionX"].
Definition PLocalSearch : prototype :=
  mkProto int32 "PLocalSearch"
    [mkParam LumBlock "currentBlock"; mkParam (Tptr MpegFrame) "prev";
     mkParam Tint "by"; mkParam Tint "bx";
     mkParam (Tptr Tint) "motionY"; mkParam (Tptr Tint) "motionX";
     mkParam int32 "bestSoFar"].
Definition PTwoLevelSearch : prototype :=
  mkProto int32 "PTwoLevelSearch"
    [mkParam LumBlock "currentBlock"; mkParam (Tptr MpegFrame) "prev";
     mkParam Tint "by"; mkParam Tint "bx";
     mkParam (Tptr Tint) "motionY"; mkParam (Tptr Tint) "motionX";
     mkParam int32 "bestSoFar"].

(** The prototypes in declaration order. *)
Definition declared : list prototype :=
  [SetPSearchAlg; SetBSearchAlg; BSearchName; PSearchName;
   PLogarithmicSearch; PSubSampleSearch; PLocalSearch; PTwoLevelSearch].

(** The P-frame search functions are the declarations returning a cost. *)
Definition is_search (f : prototype) : bool :=
  match ret f with
  | Tnamed n => String.eqb n "int32"
  | _ => false
  end.

Definition searches : list prototype := filter is_search declared.

(** Type of the parameter called [n], if the prototype has one. *)
Definition param_type (f : prototype) (n : string) : option ctype :=
  option_map p_type (find (fun p => String.eqb (p_name p) n) (params f)).

Definition takes (f : prototype) (n : string) : bool :=
  match param_type f n with Some _ => true | None => false end.

End Proto.

(** ** Algorithm selector

    [search.h] declares the global [psearchAlg] and the prototypes of the
    four selector functions; their bodies are in a file that is not part
    of the sources at hand. *)

Module Selector.

(** The process-wide selection: [psearchAlg] as declared, and its
    B-frame counterpart. *)
Record modes : Type := mkModes {
  psearchAlg : Z;
  bsearchAlg : Z
}.

(** What an unrecognized name is reported as. *)
Inductive config_error : Type :=
| UnrecognizedAlgorithm (alg : string).

(** Modelled from the spec: the table of names [SetPSearchAlg] recognizes
    is missing with its body.  The spec names the mode "logarithmic"; the
    other entries follow the mode constants of the header. *)
Definition psearch_names : list (string * Z) :=
  [("subsample"%string, PSEARCH_SUBSAMPLE);
   ("exhaustive"%string, PSEARCH_EXHAUSTIVE);
   ("logarithmic"%string, PSEARCH_LOGARITHMIC);
   ("twolevel"%string, PSEARCH_TWOLEVEL)].

(** Modelled from the spec: the table of names [SetBSearchAlg] recognizes
    is missing with its body; the entries follow the mode constants. *)
Definition bsearch_names : list (string * Z) :=
  [("exhaustive"%string, BSEARCH_EXHAUSTIVE);
   ("cross2"%string, BSEARCH_CROSS2);
   ("simple"%string, BSEARCH_SIMPLE)].

Fixpoint mode_of_name (tbl : list (string * Z)) (alg : string) : option Z :=
  match tbl with
  | [] => None
  | (n, m) :: tbl' => if String.eqb alg n then Some m else mode_of_name tbl' alg
  end.

Fixpoint name_of_mode (tbl : list (string * Z)) (mode : Z) : option string :=
  match tbl with
  | [] => None
  | (n, m) :: tbl' => if mode =? m then Some n else name_of_mode tbl' mode
  end.

(** Modelled from the spec: the body of [SetPSearchAlg] is missing.  It
    maps a recognized name to its mode and stores it; an unrecognized
    name is reported as an error and no mode is stored. *)
Definition SetPSearchAlg (alg : string) (s : modes) : modes + config_error :=
  match mode_of_name psearch_names alg with
  | Some m => inl (mkModes m (bsearchAlg s))
  | None => inr (UnrecognizedAlgorithm alg)
  end.

(** Modelled from the spec: the body of [SetBSearchAlg] is missing; as
    [SetPSearchAlg], for the B-frame mode. *)
Definition SetBSearchAlg (alg : string) (s : modes) : modes + config_error :=
  match mode_of_name bsearch_names alg with
  | Some m => inl (mkModes (psearchAlg s) m)
  | None => inr (UnrecognizedAlgorithm alg)
  end.

(** Modelled from the spec: the body of [PSearchName] is missing.  It
    returns the name of the active mode and changes nothing. *)
Definition PSearchName (s : modes) : option string :=
  name_of_mode psearch_names (psearchAlg s).

(** Modelled from the spec: the body of [BSearchName] is missing. *)
Definition BSearchName (s : modes) : option string :=
  name_of_mode bsearch_names (bsearchAlg s).

End Selector.

(** * Properties *)

(** ** Checked arithmetic *)

Lemma check_Some z r : CInt.check z = Some r -> r = z.
Proof.
  unfold CInt.check. destruct (CInt.in_int z); congruence.
Qed.

Lemma check_in_range z :
  CInt.INT_MIN <= z <= CInt.INT_MAX -> CInt.check z = Some z.
Proof.
  intros [Hlo Hhi]. unfold CInt.check, CInt.in_int.
  apply Z.leb_le in Hlo. apply Z.leb_le in Hhi.
  now rewrite Hlo, Hhi.
Qed.

Lemma check_Some_range z r :
  CInt.check z = Some r -> CInt.INT_MIN <= r <= CInt.INT_MAX.
Proof.
  unfold CInt.check, CInt.in_int.
  destruct (Z.leb_spec CInt.INT_MIN z) as [Hlo|Hlo],
           (Z.leb_spec z CInt.INT_MAX) as [Hhi|Hhi];
    simpl; intros Heq; inversion Heq; subst; lia.
Qed.

Lemma bind_check {B : Type} z (k : Z -> option B) :
  CInt.INT_MIN <= z <= CInt.INT_MAX -> CInt.bind (CInt.check z) k = k z.
Proof.
  intros H. now rewrite (check_in_range z H).
Qed.

Ltac in_range := unfold CInt.INT_MIN, CInt.INT_MAX; lia.

Lemma bind_Some {A B : Type} (m : option A) (k : A -> option B) (r : B) :
  CInt.bind m k = Some r -> exists a, m = Some a /\ k a = Some r.
Proof.
  destruct m as [a|]; simpl; [eauto | discriminate].
Qed.

(** Takes a defined computation apart, one checked step at a time. *)
Ltac step_defined H :=
  repeat match type of H with
  | CInt.bind _ _ = Some _ =>
      let a := fresh "a" in
      let Ha := fresh "Ha" in
      apply bind_Some in H; destruct H as (a & Ha & H)
  end.

Ltac check_eqs :=
  repeat match goal with
  | H : CInt.check _ = Some _ |- _ => apply check_Some in H
  end.

Lemma land_nonzero a b : CInt.land a b <> 0 <-> a <> 0 /\ b <> 0.
Proof.
  unfold CInt.land.
  destruct (Z.eqb_spec a 0), (Z.eqb_spec b 0); lia.
Qed.

Lemma ge_nonzero a b : CInt.ge a b <> 0 <-> b <= a.
Proof.
  unfold CInt.ge, CInt.of_bool. destruct (Z.leb_spec b a); lia.
Qed.

Lemma lt_nonzero a b : CInt.lt a b <> 0 <-> a < b.
Proof.
  unfold CInt.lt, CInt.of_bool. destruct (Z.ltb_spec a b); lia.
Qed.

(** The four comparisons of [VALID_MOTION], in the order the macro
    writes them. *)
Lemma VALID_MOTION_nonzero (b : bounds) (y x : Z) :
  VALID_MOTION b y x <> 0 ->
  leftMY b <= y /\ y < rightMY b /\ leftMX b <= x /\ x < rightMX b.
Proof.
  unfold VALID_MOTION.
  rewrite !land_nonzero, !ge_nonzero, !lt_nonzero. tauto.
Qed.

Lemma VALID_MOTION_accepts (b : bounds) (y x : Z) :
  leftMY b <= y -> y < rightMY b -> leftMX b <= x -> x < rightMX b ->
  VALID_MOTION b y x <> 0.
Proof.
  intros Hy1 Hy2 Hx1 Hx2. unfold VALID_MOTION.
  rewrite !land_nonzero, !ge_nonzero, !lt_nonzero. tauto.
Qed.

(** ** The boundary macro in closed form *)

Section MacroFacts.

Variable DCTSIZE : Z.

Lemma left_bound_Some v r :
  left_bound DCTSIZE v = Some r -> r = -2 * DCTSIZE * v.
Proof.
  unfold left_bound, CInt.neg, CInt.mul. intros H.
  step_defined H. check_eqs. subst. lia.
Qed.

Lemma right_bound_Some Fsize v r :
  right_bound DCTSIZE Fsize v = Some r ->
  r = 2 * (Fsize - (v + 2) * DCTSIZE + 1) - 1.
Proof.
  unfold right_bound, CInt.add, CInt.sub, CInt.mul. intros H.
  step_defined H. check_eqs. subst. reflexivity.
Qed.

Lemma incr_Some v r : incr v = Some r -> r = v + 1.
Proof.
  unfold incr, CInt.add. intros H. now apply check_Some in H.
Qed.

(** The right bound is one below a doubled value that was itself in
    range, so the increment of the coarse step cannot overflow. *)
Lemma incr_right_bound_defined Fsize v r :
  right_bound DCTSIZE Fsize v = Some r -> incr r = Some (r + 1).
Proof.
  unfold right_bound, CInt.add, CInt.sub, CInt.mul. intros H.
  step_defined H.
  match goal with
  | He : CInt.check (2 * _) = Some ?e |- _ =>
      pose proof (check_Some_range _ _ He) as Hrange;
      apply check_Some in He
  end.
  apply check_Some in H. subst r.
  unfold incr, CInt.add. apply check_in_range. lia.
Qed.

Lemma COMPUTE_MOTION_BOUNDARY_Some F by_ bx stepSize b :
  COMPUTE_MOTION_BOUNDARY DCTSIZE F by_ bx stepSize = Some b ->
  leftMY b = -2 * DCTSIZE * by_ /\
  leftMX b = -2 * DCTSIZE * bx /\
  rightMY b =
    2 * (Fsize_y F - (by_ + 2) * DCTSIZE + 1) - 1 + coarse_slack stepSize /\
  rightMX b =
    2 * (Fsize_x F - (bx + 2) * DCTSIZE + 1) - 1 + coarse_slack stepSize.
Proof.
  unfold COMPUTE_MOTION_BOUNDARY, coarse_slack, CInt.eq, CInt.of_bool.
  intros H.
  apply bind_Some in H. destruct H as (lMY & HlMY & H).
  apply bind_Some in H. destruct H as (lMX & HlMX & H).
  apply bind_Some in H. destruct H as (rMY & HrMY & H).
  apply bind_Some in H. destruct H as (rMX & HrMX & H).
  apply left_bound_Some in HlMY, HlMX.
  apply right_bound_Some in HrMY, HrMX.
  destruct (Z.eqb_spec stepSize 2) as [Hs|Hs].
  - change (1 =? 0) with false in H. cbv iota in H.
    apply bind_Some in H. destruct H as (rMY' & HrMY' & H).
    apply bind_Some in H. destruct H as (rMX' & HrMX' & H).
    apply incr_Some in HrMY', HrMX'.
    injection H as <-. cbn [leftMY leftMX rightMY rightMX]. lia.
  - change (0 =? 0) with true in H. cbv iota in H.
    injection H as <-. cbn [leftMY leftMX rightMY rightMX]. lia.
Qed.

(** Whether the macro is defined does not depend on the step size. *)
Lemma COMPUTE_MOTION_BOUNDARY_defined_any_step F by_ bx stepSize stepSize' b :
  COMPUTE_MOTION_BOUNDARY DCTSIZE F by_ bx stepSize = Some b ->
  exists b', COMPUTE_MOTION_BOUNDARY DCTSIZE F by_ bx stepSize' = Some b'.
Proof.
  unfold COMPUTE_MOTION_BOUNDARY. intros H.
  apply bind_Some in H. destruct H as (lMY & HlMY & H).
  apply bind_Some in H. destruct H as (lMX & HlMX & H).
  apply bind_Some in H. destruct H as (rMY & HrMY & H).
  apply bind_Some in H. destruct H as (rMX & HrMX & _).
  rewrite HlMY, HlMX, HrMY, HrMX. cbn [CInt.bind].
  destruct (CInt.eq stepSize' 2 =? 0); [eauto | ].
  rewrite (incr_right_bound_defined _ _ _ HrMY).
  rewrite (incr_right_bound_defined _ _ _ HrMX).
  cbn [CInt.bind]. eauto.
Qed.

(** The macro is defined on every frame whose dimensions leave room for
    the doubling in the right bounds. *)
Lemma COMPUTE_MOTION_BOUNDARY_defined F by_ bx stepSize :
  0 < DCTSIZE -> 0 <= by_ -> 0 <= bx ->
  (by_ + 2) * DCTSIZE <= Fsize_y F <= 2 ^ 30 - 2 ->
  (bx + 2) * DCTSIZE <= Fsize_x F <= 2 ^ 30 - 2 ->
  exists b, COMPUTE_MOTION_BOUNDARY DCTSIZE F by_ bx stepSize = Some b.
Proof.
  intros HD Hby Hbx Hy Hx.
  assert (Hrange : forall Fsize v, 0 <= v ->
            (v + 2) * DCTSIZE <= Fsize <= 2 ^ 30 - 2 ->
            left_bound DCTSIZE v = Some (-2 * DCTSIZE * v) /\
            right_bound DCTSIZE Fsize v =
              Some (2 * (Fsize - (v + 2) * DCTSIZE + 1) - 1)).
  { intros Fsize v Hv HF.
    assert (0 <= v * DCTSIZE) by nia.
    assert (v + 2 <= (v + 2) * DCTSIZE) by nia.
    unfold left_bound, right_bound, CInt.neg, CInt.add, CInt.sub, CInt.mul.
    split.
    - rewrite !bind_check by in_range.
      now rewrite check_in_range by in_range.
    - rewrite !bind_check by in_range.
      now rewrite check_in_range by in_range. }
  destruct (Hrange _ _ Hby Hy) as [HlY HrY].
  destruct (Hrange _ _ Hbx Hx) as [HlX HrX].
  unfold COMPUTE_MOTION_BOUNDARY.
  rewrite HlY, HlX, HrY, HrX. cbn [CInt.bind].
  destruct (CInt.eq stepSize 2 =? 0); [eauto|].
  unfold incr, CInt.add.
  rewrite !bind_check by in_range. eauto.
Qed.

End MacroFacts.

(** ** Validity predicate *)

(** C3: [VALID_MOTION(y,x)] is non-zero exactly when both components lie
    in the half-open ranges, [leftMY <= y < rightMY] and
    [leftMX <= x < rightMX]. *)
Theorem VALID_MOTION_iff_half_open (b : bounds) (y x : Z) :
  VALID_MOTION b y x <> 0 <->
  (leftMY b <= y < rightMY b) /\ (leftMX b <= x < rightMX b).
Proof.
  split.
  - intros Hv. apply VALID_MOTION_nonzero in Hv. lia.
  - intros [[Hy1 Hy2] [Hx1 Hx2]]. now apply VALID_MOTION_accepts.
Qed.

(** As a C truth value the predicate is 0 or 1. *)
Lemma VALID_MOTION_0_or_1 (b : bounds) (y x : Z) :
  VALID_MOTION b y x = 0 \/ VALID_MOTION b y x = 1.
Proof.
  unfold VALID_MOTION, CInt.land.
  repeat match goal with
  | |- context [if ?c then _ else _] => destruct c
  end; auto.
Qed.

(** ** Boundary computation *)

Section Boundary.

Variable DCTSIZE : Z.

(** C4: the left bounds are [-2*DCTSIZE*by] and [-2*DCTSIZE*bx]; a second
    computation at the same block position, whatever its step size and
    frame dimensions, yields the same left bounds. *)
Theorem left_bounds_depend_on_position_only
    (F F' : frame) (by_ bx stepSize stepSize' : Z) (b b' : bounds) :
  COMPUTE_MOTION_BOUNDARY DCTSIZE F by_ bx stepSize = Some b ->
  COMPUTE_MOTION_BOUNDARY DCTSIZE F' by_ bx stepSize' = Some b' ->
  leftMY b = -2 * DCTSIZE * by_ /\ leftMX b = -2 * DCTSIZE * bx /\
  leftMY b' = leftMY b /\ leftMX b' = leftMX b.
Proof.
  intros H H'.
  apply COMPUTE_MOTION_BOUNDARY_Some in H, H'.
  destruct H as (Hy & Hx & _), H' as (Hy' & Hx' & _).
  repeat split; congruence.
Qed.

(** C2, as the code has it: at [stepSize == 2] the bounds are defined
    whenever they are at [stepSize == 1], and each right bound is one
    unit above its value at [stepSize == 1]. *)
Theorem right_bounds_one_looser_at_coarse_step
    (F : frame) (by_ bx : Z) (fine : bounds) :
  COMPUTE_MOTION_BOUNDARY DCTSIZE F by_ bx 1 = Some fine ->
  exists coarse,
    COMPUTE_MOTION_BOUNDARY DCTSIZE F by_ bx 2 = Some coarse /\
    rightMY coarse = rightMY fine + 1 /\ rightMX coarse = rightMX fine + 1.
Proof.
  intros H1.
  destruct (COMPUTE_MOTION_BOUNDARY_defined_any_step DCTSIZE _ _ _ _ 2 _ H1)
    as [coarse H2].
  exists coarse. split; [exact H2 | ].
  apply COMPUTE_MOTION_BOUNDARY_Some in H1, H2.
  change (coarse_slack 1) with 0 in H1.
  change (coarse_slack 2) with 1 in H2.
  lia.
Qed.

(** C9: the left bounds agree, the right bounds at [stepSize == 2] are
    one larger, and every vector valid at [stepSize == 1] is valid at
    [stepSize == 2]. *)
Theorem fine_range_within_coarse_range
    (F : frame) (by_ bx : Z) (fine : bounds) :
  COMPUTE_MOTION_BOUNDARY DCTSIZE F by_ bx 1 = Some fine ->
  exists coarse,
    COMPUTE_MOTION_BOUNDARY DCTSIZE F by_ bx 2 = Some coarse /\
    leftMY coarse = leftMY fine /\ leftMX coarse = leftMX fine /\
    rightMY coarse = rightMY fine + 1 /\ rightMX coarse = rightMX fine + 1 /\
    forall y x, VALID_MOTION fine y x <> 0 -> VALID_MOTION coarse y x <> 0.
Proof.
  intros H1.
  destruct (COMPUTE_MOTION_BOUNDARY_defined_any_step DCTSIZE _ _ _ _ 2 _ H1)
    as [coarse H2].
  exists coarse. split; [exact H2 | ].
  apply COMPUTE_MOTION_BOUNDARY_Some in H1, H2.
  change (coarse_slack 1) with 0 in H1.
  change (coarse_slack 2) with 1 in H2.
  destruct H1 as (Hly & Hlx & Hry & Hrx), H2 as (Hly' & Hlx' & Hry' & Hrx').
  repeat split; try lia.
  intros y x Hv.
  apply VALID_MOTION_nonzero in Hv.
  apply VALID_MOTION_accepts; lia.
Qed.

(** C10: when the block lies inside the frame, the zero vector is valid
    at either step size. *)
Theorem zero_motion_is_valid
    (F : frame) (by_ bx stepSize : Z) (b : bounds) :
  0 < DCTSIZE ->
  0 <= by_ -> 0 <= bx ->
  stepSize = 1 \/ stepSize = 2 ->
  (by_ + 2) * DCTSIZE <= Fsize_y F ->
  (bx + 2) * DCTSIZE <= Fsize_x F ->
  COMPUTE_MOTION_BOUNDARY DCTSIZE F by_ bx stepSize = Some b ->
  VALID_MOTION b 0 0 <> 0.
Proof.
  intros HD Hby Hbx Hs Hfy Hfx H.
  apply COMPUTE_MOTION_BOUNDARY_Some in H.
  assert (0 <= coarse_slack stepSize)
    by (unfold coarse_slack; destruct (stepSize =? 2); lia).
  apply VALID_MOTION_accepts; nia.
Qed.

(** *** Accepted vectors stay inside the reference frame *)

Lemma in_frame_1d_of_bounds (Fsize b v left right : Z) :
  left = -2 * DCTSIZE * b ->
  right <= 2 * (Fsize - (b + 2) * DCTSIZE + 1) - 1 ->
  left <= v < right ->
  in_frame_1d DCTSIZE Fsize b v.
Proof.
  intros Hl Hr Hv i Hi.
  unfold sample_lo, sample_hi, halfpel_pos.
  split.
  - apply Z.div_pos; lia.
  - apply Z.div_lt_upper_bound; lia.
Qed.

(** An even component never reaches an odd exclusive bound, so one unit
    of slack on the right changes nothing for it. *)
Lemma even_below_even_bound (v t : Z) :
  Z.even v = true -> v < 2 * t - 1 + 1 -> v < 2 * t - 1.
Proof.
  intros Hev Hv.
  apply Z.even_spec in Hev. destruct Hev as [k ->]. lia.
Qed.

(** C1: for a block inside the frame and a step size of 1 or 2, a vector
    accepted by [VALID_MOTION] under the computed bounds displaces the
    block to a patch every sample of which, the extra row or column of a
    half-pel component included, lies inside the reference frame; at
    step size 2 the candidates are the vectors with even components. *)
Theorem valid_motion_stays_in_frame
    (F : frame) (by_ bx stepSize : Z) (b : bounds) (y x : Z) :
  0 <= by_ -> 0 <= bx ->
  stepSize = 1 \/ stepSize = 2 ->
  (by_ + 2) * DCTSIZE <= Fsize_y F ->
  (bx + 2) * DCTSIZE <= Fsize_x F ->
  COMPUTE_MOTION_BOUNDARY DCTSIZE F by_ bx stepSize = Some b ->
  (stepSize = 2 -> Z.even y = true /\ Z.even x = true) ->
  VALID_MOTION b y x <> 0 ->
  patch_in_frame DCTSIZE F by_ bx y x.
Proof.
  intros _ _ Hs _ _ H Heven Hv.
  apply COMPUTE_MOTION_BOUNDARY_Some in H.
  destruct H as (Hly & Hlx & Hry & Hrx).
  apply VALID_MOTION_nonzero in Hv.
  destruct Hv as (Hy1 & Hy2 & Hx1 & Hx2).
  destruct Hs as [-> | ->].
  - change (coarse_slack 1) with 0 in Hry, Hrx.
    split.
    + apply (in_frame_1d_of_bounds _ _ _ (leftMY b) (rightMY b)); lia.
    + apply (in_frame_1d_of_bounds _ _ _ (leftMX b) (rightMX b)); lia.
  - change (coarse_slack 2) with 1 in Hry, Hrx.
    destruct (Heven eq_refl) as [Hey Hex].
    rewrite Hry in Hy2. rewrite Hrx in Hx2.
    apply even_below_even_bound in Hy2, Hx2; trivial.
    split.
    + apply (in_frame_1d_of_bounds _ _ _ (leftMY b)
               (2 * (Fsize_y F - (by_ + 2) * DCTSIZE + 1) - 1)); lia.
    + apply (in_frame_1d_of_bounds _ _ _ (leftMX b)
               (2 * (Fsize_x F - (bx + 2) * DCTSIZE + 1) - 1)); lia.
Qed.

End Boundary.

(** *** The boundary computation on a 352x240 frame

    [DCTSIZE] is 8, the block is the macroblock in row 3, column 5. *)

Lemma left_bounds_depend_on_position_only_witness :
  COMPUTE_MOTION_BOUNDARY 8 (mkFrame 240 352) 3 5 1
    = Some (mkBounds (-48) (-80) 401 593) /\
  COMPUTE_MOTION_BOUNDARY 8 (mkFrame 480 640) 3 5 2
    = Some (mkBounds (-48) (-80) 882 1170) /\
  leftMY (mkBounds (-48) (-80) 401 593) = -2 * 8 * 3 /\
  leftMX (mkBounds (-48) (-80) 401 593) = -2 * 8 * 5 /\
  leftMY (mkBounds (-48) (-80) 882 1170) = leftMY (mkBounds (-48) (-80) 401 593) /\
  leftMX (mkBounds (-48) (-80) 882 1170) = leftMX (mkBounds (-48) (-80) 401 593).
Proof.
  split; [reflexivity | split; [reflexivity | ]].
  apply (left_bounds_depend_on_position_only
           8 (mkFrame 240 352) (mkFrame 480 640) 3 5 1 2); reflexivity.
Defined.

(** C2 fails as stated: on the 352x240 frame the right bounds at
    [stepSize == 2] are 402 and 594, above the 401 and 593 of
    [stepSize == 1], not below them. *)
Lemma right_bounds_not_tighter_at_coarse_step :
  exists fine coarse,
    COMPUTE_MOTION_BOUNDARY 8 (mkFrame 240 352) 3 5 1 = Some fine /\
    COMPUTE_MOTION_BOUNDARY 8 (mkFrame 240 352) 3 5 2 = Some coarse /\
    ~ right_bounds_tighter_by_one fine coarse.
Proof.
  exists (mkBounds (-48) (-80) 401 593), (mkBounds (-48) (-80) 402 594).
  split; [reflexivity | split; [reflexivity | ]].
  unfold right_bounds_tighter_by_one. cbn [rightMY rightMX]. lia.
Qed.

Lemma right_bounds_one_looser_at_coarse_step_witness :
  COMPUTE_MOTION_BOUNDARY 8 (mkFrame 240 352) 3 5 1
    = Some (mkBounds (-48) (-80) 401 593) /\
  exists coarse,
    COMPUTE_MOTION_BOUNDARY 8 (mkFrame 240 352) 3 5 2 = Some coarse /\
    rightMY coarse = rightMY (mkBounds (-48) (-80) 401 593) + 1 /\
    rightMX coarse = rightMX (mkBounds (-48) (-80) 401 593) + 1.
Proof.
  split; [reflexivity | ].
  apply (right_bounds_one_looser_at_coarse_step 8 (mkFrame 240 352) 3 5).
  reflexivity.
Defined.

Lemma fine_range_within_coarse_range_witness :
  COMPUTE_MOTION_BOUNDARY 8 (mkFrame 240 352) 3 5 1
    = Some (mkBounds (-48) (-80) 401 593) /\
  exists coarse,
    COMPUTE_MOTION_BOUNDARY 8 (mkFrame 240 352) 3 5 2 = Some coarse /\
    leftMY coarse = leftMY (mkBounds (-48) (-80) 401 593) /\
    leftMX coarse = leftMX (mkBounds (-48) (-80) 401 593) /\
    rightMY coarse = rightMY (mkBounds (-48) (-80) 401 593) + 1 /\
    rightMX coarse = rightMX (mkBounds (-48) (-80) 401 593) + 1 /\
    forall y x,
      VALID_MOTION (mkBounds (-48) (-80) 401 593) y x <> 0 ->
      VALID_MOTION coarse y x <> 0.
Proof.
  split; [reflexivity | ].
  apply (fine_range_within_coarse_range 8 (mkFrame 240 352) 3 5).
  reflexivity.
Defined.

Lemma zero_motion_is_valid_witness :
  COMPUTE_MOTION_BOUNDARY 8 (mkFrame 240 352) 3 5 2
    = Some (mkBounds (-48) (-80) 402 594) /\
  VALID_MOTION (mkBounds (-48) (-80) 402 594) 0 0 <> 0.
Proof.
  split; [reflexivity | ].
  apply (zero_motion_is_valid 8 (mkFrame 240 352) 3 5 2);
    [lia | lia | lia | right; reflexivity | simpl; lia | simpl; lia
    | reflexivity].
Defined.

(** The odd vector (399, -79) is a candidate at step size 1, and its
    patch ends on the last row of the frame. *)
Lemma valid_motion_stays_in_frame_witness :
  COMPUTE_MOTION_BOUNDARY 8 (mkFrame 240 352) 3 5 1
    = Some (mkBounds (-48) (-80) 401 593) /\
  VALID_MOTION (mkBounds (-48) (-80) 401 593) 399 (-79) <> 0 /\
  patch_in_frame 8 (mkFrame 240 352) 3 5 399 (-79).
Proof.
  split; [reflexivity | ].
  split; [vm_compute; discriminate | ].
  apply (valid_motion_stays_in_frame 8 (mkFrame 240 352) 3 5 1
           (mkBounds (-48) (-80) 401 593));
    [lia | lia | left; reflexivity | simpl; lia | simpl; lia | reflexivity
    | intros H; discriminate H | vm_compute; discriminate].
Defined.

(** The restriction to even components at step size 2 is needed: the odd
    vector (401, 0) passes [VALID_MOTION] under the step-2 bounds, and
    the interpolation of its last row reads row 240 of a 240-row frame. *)
Lemma odd_vector_at_coarse_step_leaves_frame :
  COMPUTE_MOTION_BOUNDARY 8 (mkFrame 240 352) 3 5 2
    = Some (mkBounds (-48) (-80) 402 594) /\
  VALID_MOTION (mkBounds (-48) (-80) 402 594) 401 0 <> 0 /\
  ~ patch_in_frame 8 (mkFrame 240 352) 3 5 401 0.
Proof.
  split; [reflexivity | ].
  split; [vm_compute; discriminate | ].
  intros [Hy _].
  destruct (Hy 15 ltac:(lia)) as [_ Hhi].
  vm_compute in Hhi. discriminate Hhi.
Qed.

(** The checked arithmetic does overflow on frames of absurd height: the
    doubling in [rightMY] leaves the [int] range. *)
Lemma COMPUTE_MOTION_BOUNDARY_overflow :
  COMPUTE_MOTION_BOUNDARY 8 (mkFrame (2 ^ 30 + 15) 16) 0 0 1 = None.
Proof. reflexivity. Qed.

(** ** Prototypes *)

(** C5: the four P-frame search functions are [PLogarithmicSearch],
    [PSubSampleSearch], [PLocalSearch] and [PTwoLevelSearch]; exactly
    the last two take [bestSoFar]; each takes [by] and [bx] as [int],
    [motionY] and [motionX] as [int *], and returns [int32]. *)
Theorem search_prototypes_contract :
  map Proto.fname Proto.searches =
    ["PLogarithmicSearch"; "PSubSampleSearch";
     "PLocalSearch"; "PTwoLevelSearch"]%string /\
  map Proto.fname
      (filter (fun f => Proto.takes f "bestSoFar") Proto.searches) =
    ["PLocalSearch"; "PTwoLevelSearch"]%string /\
  Forall (fun f =>
            Proto.param_type f "by" = Some Proto.Tint /\
            Proto.param_type f "bx" = Some Proto.Tint /\
            Proto.param_type f "motionY" = Some (Proto.Tptr Proto.Tint) /\
            Proto.param_type f "motionX" = Some (Proto.Tptr Proto.Tint) /\
            Proto.ret f = Proto.int32)
         Proto.searches.
Proof.
  split; [reflexivity | split; [reflexivity | ]].
  repeat constructor.
Qed.

(** ** Algorithm selector *)

(** C7: after [SetPSearchAlg("logarithmic")] the mode is
    [PSEARCH_LOGARITHMIC] and [PSearchName()] returns a name of that
    mode. *)
Theorem logarithmic_is_named_after_selection (s : Selector.modes) :
  exists s' n,
    Selector.SetPSearchAlg "logarithmic" s = inl s' /\
    Selector.psearchAlg s' = PSEARCH_LOGARITHMIC /\
    Selector.PSearchName s' = Some n /\
    Selector.mode_of_name Selector.psearch_names n = Some PSEARCH_LOGARITHMIC.
Proof.
  exists (Selector.mkModes PSEARCH_LOGARITHMIC (Selector.bsearchAlg s)).
  exists "logarithmic"%string.
  repeat split.
Qed.

(** A successful selection leaves the other mode alone. *)
Lemma SetPSearchAlg_keeps_bsearchAlg alg s s' :
  Selector.SetPSearchAlg alg s = inl s' ->
  Selector.bsearchAlg s' = Selector.bsearchAlg s.
Proof.
  unfold Selector.SetPSearchAlg.
  destruct (Selector.mode_of_name Selector.psearch_names alg);
    intros H; inversion H; reflexivity.
Qed.

(** A name that is none of the names of a table has no mode in it. *)
Lemma mode_of_name_unlisted (tbl : list (string * Z)) (alg : string) :
  ~ In alg (map fst tbl) -> Selector.mode_of_name tbl alg = None.
Proof.
  induction tbl as [| [n m] tbl IH]; intros Hnot.
  - reflexivity.
  - cbn [Selector.mode_of_name].
    destruct (String.eqb_spec alg n) as [Heq | Hne].
    + exfalso. apply Hnot. left. cbn [fst]. congruence.
    + apply IH. intros Hin. apply Hnot. right. exact Hin.
Qed.

(** Conversely, a mode is only ever found under a listed name. *)
Lemma mode_of_name_listed (tbl : list (string * Z)) (alg : string) (m : Z) :
  Selector.mode_of_name tbl alg = Some m -> In (alg, m) tbl.
Proof.
  induction tbl as [| [n m'] tbl IH]; cbn [Selector.mode_of_name].
  - discriminate.
  - destruct (String.eqb_spec alg n) as [Heq | Hne].
    + intros H. injection H as <-. left. congruence.
    + intros H. right. apply IH, H.
Qed.

(** C8: a name that is none of the names [SetPSearchAlg], respectively
    [SetBSearchAlg], recognizes yields the error naming it; no mode is
    stored, whatever the modes were. *)
Theorem unrecognized_name_is_reported (alg : string) (s : Selector.modes) :
  (~ In alg (map fst Selector.psearch_names) ->
   Selector.SetPSearchAlg alg s = inr (Selector.UnrecognizedAlgorithm alg)) /\
  (~ In alg (map fst Selector.bsearch_names) ->
   Selector.SetBSearchAlg alg s = inr (Selector.UnrecognizedAlgorithm alg)).
Proof.
  unfold Selector.SetPSearchAlg, Selector.SetBSearchAlg.
  split; intros Hnot.
  - now rewrite (mode_of_name_unlisted _ _ Hnot).
  - now rewrite (mode_of_name_unlisted _ _ Hnot).
Qed.

(** "fastest" is no P-search name; "logarithmic" is one, but not a
    B-search name. *)
Lemma unrecognized_name_is_reported_witness :
  (~ In "fastest"%string (map fst Selector.psearch_names) /\
   Selector.SetPSearchAlg "fastest" (Selector.mkModes 0 0)
     = inr (Selector.UnrecognizedAlgorithm "fastest")) /\
  (~ In "logarithmic"%string (map fst Selector.bsearch_names) /\
   Selector.SetBSearchAlg "logarithmic" (Selector.mkModes 0 0)
     = inr (Selector.UnrecognizedAlgorithm "logarithmic")).
Proof.
  assert (HP : ~ In "fastest"%string (map fst Selector.psearch_names)).
  { simpl. intros [H | [H | [H | [H | []]]]]; discriminate H. }
  assert (HB : ~ In "logarithmic"%string (map fst Selector.bsearch_names)).
  { simpl. intros [H | [H | [H | []]]]; discriminate H. }
  split; (split; [assumption | ]).
  - exact (proj1 (unrecognized_name_is_reported "fastest"
                    (Selector.mkModes 0 0)) HP).
  - exact (proj2 (unrecognized_name_is_reported "logarithmic"
                    (Selector.mkModes 0 0)) HB).
Defined.

(** ** Further properties of the boundary macros *)

Section BoundaryExtras.

Variable DCTSIZE : Z.

Lemma right_bound_doubling_in_range Fsize v r :
  right_bound DCTSIZE Fsize v = Some r ->
  2 * (Fsize - (v + 2) * DCTSIZE + 1) <= CInt.INT_MAX.
Proof.
  unfold right_bound, CInt.add, CInt.sub, CInt.mul. intros H.
  step_defined H.
  match goal with
  | He : CInt.check (2 * _) = Some _ |- _ =>
      pose proof (check_Some_range _ _ He) as Hrange;
      apply check_Some in He
  end.
  check_eqs. subst. lia.
Qed.

(** X1: for a block inside a frame of at most [2^30 - 2] rows and
    columns, no step of the macro overflows, and the four bounds are the
    closed forms the macro text spells out. *)
Theorem boundary_defined_on_sane_frames (F : frame) (by_ bx stepSize : Z) :
  0 < DCTSIZE -> 0 <= by_ -> 0 <= bx ->
  (by_ + 2) * DCTSIZE <= Fsize_y F <= 2 ^ 30 - 2 ->
  (bx + 2) * DCTSIZE <= Fsize_x F <= 2 ^ 30 - 2 ->
  COMPUTE_MOTION_BOUNDARY DCTSIZE F by_ bx stepSize =
    Some (mkBounds
            (-2 * DCTSIZE * by_)
            (-2 * DCTSIZE * bx)
            (2 * (Fsize_y F - (by_ + 2) * DCTSIZE + 1) - 1
               + coarse_slack stepSize)
            (2 * (Fsize_x F - (bx + 2) * DCTSIZE + 1) - 1
               + coarse_slack stepSize)).
Proof.
  intros HD Hby Hbx Hy Hx.
  destruct (COMPUTE_MOTION_BOUNDARY_defined DCTSIZE F by_ bx stepSize
              HD Hby Hbx Hy Hx) as [b Hb].
  rewrite Hb. f_equal.
  apply COMPUTE_MOTION_BOUNDARY_Some in Hb.
  destruct b as [ly lx ry rx]. cbn [leftMY leftMX rightMY rightMX] in Hb.
  destruct Hb as (-> & -> & -> & ->). reflexivity.
Qed.

(** X2: whether the macro overflows does not depend on the step size:
    the two increments of the [stepSize == 2] branch can never be the
    step that overflows. *)
Theorem boundary_definedness_ignores_step
    (F : frame) (by_ bx stepSize stepSize' : Z) :
  COMPUTE_MOTION_BOUNDARY DCTSIZE F by_ bx stepSize = None <->
  COMPUTE_MOTION_BOUNDARY DCTSIZE F by_ bx stepSize' = None.
Proof.
  split; intros HN.
  - destruct (COMPUTE_MOTION_BOUNDARY DCTSIZE F by_ bx stepSize') as [b'|] eqn:E;
      [ | reflexivity].
    destruct (COMPUTE_MOTION_BOUNDARY_defined_any_step
                DCTSIZE _ _ _ _ stepSize _ E) as [b Hb].
    congruence.
  - destruct (COMPUTE_MOTION_BOUNDARY DCTSIZE F by_ bx stepSize) as [b|] eqn:E;
      [ | reflexivity].
    destruct (COMPUTE_MOTION_BOUNDARY_defined_any_step
                DCTSIZE _ _ _ _ stepSize' _ E) as [b' Hb'].
    congruence.
Qed.

(** X3: when doubling the room below or right of the block leaves the
    [int] range, the macro overflows at either step size. *)
Theorem boundary_overflows_on_huge_frames (F : frame) (by_ bx stepSize : Z) :
  CInt.INT_MAX < 2 * (Fsize_y F - (by_ + 2) * DCTSIZE + 1) \/
  CInt.INT_MAX < 2 * (Fsize_x F - (bx + 2) * DCTSIZE + 1) ->
  COMPUTE_MOTION_BOUNDARY DCTSIZE F by_ bx stepSize = None.
Proof.
  intros Hbig.
  destruct (COMPUTE_MOTION_BOUNDARY DCTSIZE F by_ bx stepSize) as [b|] eqn:E;
    [exfalso | reflexivity].
  unfold COMPUTE_MOTION_BOUNDARY in E.
  apply bind_Some in E. destruct E as (lMY & _ & E).
  apply bind_Some in E. destruct E as (lMX & _ & E).
  apply bind_Some in E. destruct E as (rMY & HrMY & E).
  apply bind_Some in E. destruct E as (rMX & HrMX & _).
  apply right_bound_doubling_in_range in HrMY, HrMX.
  lia.
Qed.

(** X4: every vector whose displaced block, interpolation neighbours
    included, lies inside the frame is accepted, at any step size: the
    bounds exclude nothing that is in the frame. *)
Theorem in_frame_motion_is_valid
    (F : frame) (by_ bx stepSize : Z) (b : bounds) (y x : Z) :
  0 < DCTSIZE ->
  COMPUTE_MOTION_BOUNDARY DCTSIZE F by_ bx stepSize = Some b ->
  patch_in_frame DCTSIZE F by_ bx y x ->
  VALID_MOTION b y x <> 0.
Proof.
  intros HD H [Hy Hx].
  apply COMPUTE_MOTION_BOUNDARY_Some in H.
  destruct H as (Hly & Hlx & Hry & Hrx).
  assert (Hs : 0 <= coarse_slack stepSize)
    by (unfold coarse_slack; destruct (stepSize =? 2); lia).
  destruct (Hy 0 ltac:(lia)) as [Hy0 _].
  destruct (Hy (2 * DCTSIZE - 1) ltac:(lia)) as [_ Hy1].
  destruct (Hx 0 ltac:(lia)) as [Hx0 _].
  destruct (Hx (2 * DCTSIZE - 1) ltac:(lia)) as [_ Hx1].
  unfold sample_lo, sample_hi, halfpel_pos in *.
  apply VALID_MOTION_accepts;
    Z.to_euclidean_division_equations; nia.
Qed.

(** X5: the comments of the macro hold.  The left bounds form an
    accepted vector exactly when the frame is at least one block high
    and wide, wherever the block is; a vector with a component on a
    right bound is never accepted. *)
Theorem bound_vectors_as_commented
    (F : frame) (by_ bx stepSize : Z) (b : bounds) :
  COMPUTE_MOTION_BOUNDARY DCTSIZE F by_ bx stepSize = Some b ->
  (VALID_MOTION b (leftMY b) (leftMX b) <> 0 <->
   2 * DCTSIZE <= Fsize_y F /\ 2 * DCTSIZE <= Fsize_x F) /\
  (forall y x, VALID_MOTION b (rightMY b) x = 0 /\
               VALID_MOTION b y (rightMX b) = 0).
Proof.
  intros H.
  apply COMPUTE_MOTION_BOUNDARY_Some in H.
  destruct H as (Hly & Hlx & Hry & Hrx).
  assert (Hs : 0 <= coarse_slack stepSize <= 1)
    by (unfold coarse_slack; destruct (stepSize =? 2); lia).
  split.
  - split.
    + intros Hv. apply VALID_MOTION_nonzero in Hv. lia.
    + intros [Hfy Hfx]. apply VALID_MOTION_accepts; lia.
  - intros y x. split.
    + destruct (Z.eq_dec (VALID_MOTION b (rightMY b) x) 0) as [E|E];
        [exact E | ].
      apply VALID_MOTION_nonzero in E. lia.
    + destruct (Z.eq_dec (VALID_MOTION b y (rightMX b)) 0) as [E|E];
        [exact E | ].
      apply VALID_MOTION_nonzero in E. lia.
Qed.

(** X6: the zero vector is accepted exactly when the block position is
    non-negative and the block lies inside the frame. *)
Theorem zero_motion_valid_iff_block_in_frame
    (F : frame) (by_ bx stepSize : Z) (b : bounds) :
  0 < DCTSIZE ->
  COMPUTE_MOTION_BOUNDARY DCTSIZE F by_ bx stepSize = Some b ->
  (VALID_MOTION b 0 0 <> 0 <->
   0 <= by_ /\ 0 <= bx /\
   (by_ + 2) * DCTSIZE <= Fsize_y F /\ (bx + 2) * DCTSIZE <= Fsize_x F).
Proof.
  intros HD H.
  apply COMPUTE_MOTION_BOUNDARY_Some in H.
  destruct H as (Hly & Hlx & Hry & Hrx).
  assert (Hs : 0 <= coarse_slack stepSize <= 1)
    by (unfold coarse_slack; destruct (stepSize =? 2); lia).
  split.
  - intros Hv. apply VALID_MOTION_nonzero in Hv. nia.
  - intros (Hby & Hbx & Hfy & Hfx). apply VALID_MOTION_accepts; nia.
Qed.

(** X7: the bounds move with the block.  A vector is accepted at block
    [(by, bx)] exactly when the vector reaching the same place in the
    reference frame is accepted at block [(by', bx')]. *)
Theorem valid_motion_moves_with_block
    (F : frame) (by_ bx by' bx' stepSize : Z) (b b' : bounds) (y x : Z) :
  COMPUTE_MOTION_BOUNDARY DCTSIZE F by_ bx stepSize = Some b ->
  COMPUTE_MOTION_BOUNDARY DCTSIZE F by' bx' stepSize = Some b' ->
  (VALID_MOTION b y x <> 0 <->
   VALID_MOTION b' (y + 2 * DCTSIZE * (by_ - by'))
                   (x + 2 * DCTSIZE * (bx - bx')) <> 0).
Proof.
  intros H H'.
  apply COMPUTE_MOTION_BOUNDARY_Some in H, H'.
  destruct H as (Hly & Hlx & Hry & Hrx), H' as (Hly' & Hlx' & Hry' & Hrx').
  split; intros Hv; apply VALID_MOTION_nonzero in Hv;
    apply VALID_MOTION_accepts; lia.
Qed.

(** X8: on vectors with even components the bounds of step size 2
    accept exactly what the bounds of step size 1 accept. *)
Theorem coarse_and_fine_agree_on_even_vectors
    (F : frame) (by_ bx : Z) (fine coarse : bounds) (y x : Z) :
  COMPUTE_MOTION_BOUNDARY DCTSIZE F by_ bx 1 = Some fine ->
  COMPUTE_MOTION_BOUNDARY DCTSIZE F by_ bx 2 = Some coarse ->
  Z.even y = true -> Z.even x = true ->
  (VALID_MOTION coarse y x <> 0 <-> VALID_MOTION fine y x <> 0).
Proof.
  intros H1 H2 Hey Hex.
  apply COMPUTE_MOTION_BOUNDARY_Some in H1, H2.
  change (coarse_slack 1) with 0 in H1.
  change (coarse_slack 2) with 1 in H2.
  destruct H1 as (Hly & Hlx & Hry & Hrx), H2 as (Hly' & Hlx' & Hry' & Hrx').
  apply Z.even_spec in Hey, Hex.
  destruct Hey as [ky ->], Hex as [kx ->].
  split; intros Hv; apply VALID_MOTION_nonzero in Hv;
    apply VALID_MOTION_accepts; lia.
Qed.

(** X9: the left bounds are even, and the right bounds are odd except
    at step size 2, where they are even. *)
Theorem bound_parities (F : frame) (by_ bx stepSize : Z) (b : bounds) :
  COMPUTE_MOTION_BOUNDARY DCTSIZE F by_ bx stepSize = Some b ->
  Z.even (leftMY b) = true /\ Z.even (leftMX b) = true /\
  Z.even (rightMY b) = (stepSize =? 2) /\
  Z.even (rightMX b) = (stepSize =? 2).
Proof.
  intros H.
  apply COMPUTE_MOTION_BOUNDARY_Some in H.
  destruct H as (Hly & Hlx & Hry & Hrx).
  rewrite Hly, Hlx, Hry, Hrx. unfold coarse_slack.
  replace (-2 * DCTSIZE * by_) with (2 * (- DCTSIZE * by_)) by lia.
  replace (-2 * DCTSIZE * bx) with (2 * (- DCTSIZE * bx)) by lia.
  rewrite !Z.even_mul. cbn [Z.even orb].
  destruct (stepSize =? 2).
  - replace (2 * (Fsize_y F - (by_ + 2) * DCTSIZE + 1) - 1 + 1)
      with (2 * (Fsize_y F - (by_ + 2) * DCTSIZE + 1)) by lia.
    replace (2 * (Fsize_x F - (bx + 2) * DCTSIZE + 1) - 1 + 1)
      with (2 * (Fsize_x F - (bx + 2) * DCTSIZE + 1)) by lia.
    rewrite !Z.even_mul. auto.
  - replace (2 * (Fsize_y F - (by_ + 2) * DCTSIZE + 1) - 1 + 0)
      with (2 * (Fsize_y F - (by_ + 2) * DCTSIZE) + 1) by lia.
    replace (2 * (Fsize_x F - (bx + 2) * DCTSIZE + 1) - 1 + 0)
      with (2 * (Fsize_x F - (bx + 2) * DCTSIZE) + 1) by lia.
    rewrite !Z.even_add, !Z.even_mul. auto.
Qed.

(** X10: a vector accepted in a frame is accepted, at the same block
    position and step size, in every frame at least as large. *)
Theorem valid_motion_monotone_in_frame
    (F F' : frame) (by_ bx stepSize : Z) (b b' : bounds) (y x : Z) :
  Fsize_y F <= Fsize_y F' -> Fsize_x F <= Fsize_x F' ->
  COMPUTE_MOTION_BOUNDARY DCTSIZE F by_ bx stepSize = Some b ->
  COMPUTE_MOTION_BOUNDARY DCTSIZE F' by_ bx stepSize = Some b' ->
  VALID_MOTION b y x <> 0 -> VALID_MOTION b' y x <> 0.
Proof.
  intros Hfy Hfx H H' Hv.
  apply COMPUTE_MOTION_BOUNDARY_Some in H, H'.
  destruct H as (Hly & Hlx & Hry & Hrx), H' as (Hly' & Hlx' & Hry' & Hrx').
  apply VALID_MOTION_nonzero in Hv.
  apply VALID_MOTION_accepts; lia.
Qed.

(** X11: at step size 2 the accepted vectors that are not on the last
    half-pel position before a right bound keep the block inside the
    frame, whatever their parity. *)
Theorem coarse_overacceptance_is_last_half_pel
    (F : frame) (by_ bx : Z) (b : bounds) (y x : Z) :
  COMPUTE_MOTION_BOUNDARY DCTSIZE F by_ bx 2 = Some b ->
  VALID_MOTION b y x <> 0 ->
  y <> rightMY b - 1 -> x <> rightMX b - 1 ->
  patch_in_frame DCTSIZE F by_ bx y x.
Proof.
  intros H Hv Hy Hx.
  apply COMPUTE_MOTION_BOUNDARY_Some in H.
  change (coarse_slack 2) with 1 in H.
  destruct H as (Hly & Hlx & Hry & Hrx).
  apply VALID_MOTION_nonzero in Hv.
  split.
  - apply (in_frame_1d_of_bounds DCTSIZE _ _ _ (leftMY b) (rightMY b - 1));
      lia.
  - apply (in_frame_1d_of_bounds DCTSIZE _ _ _ (leftMX b) (rightMX b - 1));
      lia.
Qed.

(** X12: in a frame lower or narrower than one block no vector at all
    is accepted, wherever the block is. *)
Theorem no_vector_valid_in_small_frame
    (F : frame) (by_ bx stepSize : Z) (b : bounds) (y x : Z) :
  COMPUTE_MOTION_BOUNDARY DCTSIZE F by_ bx stepSize = Some b ->
  Fsize_y F < 2 * DCTSIZE \/ Fsize_x F < 2 * DCTSIZE ->
  VALID_MOTION b y x = 0.
Proof.
  intros H Hsmall.
  apply COMPUTE_MOTION_BOUNDARY_Some in H.
  destruct H as (Hly & Hlx & Hry & Hrx).
  assert (Hs : 0 <= coarse_slack stepSize <= 1)
    by (unfold coarse_slack; destruct (stepSize =? 2); lia).
  destruct (Z.eq_dec (VALID_MOTION b y x) 0) as [E|E]; [exact E | ].
  apply VALID_MOTION_nonzero in E. lia.
Qed.

End BoundaryExtras.

(** *** The further properties on the 352x240 frame *)

Lemma boundary_defined_on_sane_frames_witness :
  COMPUTE_MOTION_BOUNDARY 8 (mkFrame 240 352) 3 5 2 =
    Some (mkBounds
            (-2 * 8 * 3)
            (-2 * 8 * 5)
            (2 * (Fsize_y (mkFrame 240 352) - (3 + 2) * 8 + 1) - 1
               + coarse_slack 2)
            (2 * (Fsize_x (mkFrame 240 352) - (5 + 2) * 8 + 1) - 1
               + coarse_slack 2)).
Proof.
  apply (boundary_defined_on_sane_frames 8 (mkFrame 240 352) 3 5 2);
    simpl; lia.
Defined.

Lemma boundary_overflows_on_huge_frames_witness :
  COMPUTE_MOTION_BOUNDARY 8 (mkFrame (2 ^ 30 + 15) 16) 0 0 1 = None.
Proof.
  apply (boundary_overflows_on_huge_frames 8 (mkFrame (2 ^ 30 + 15) 16) 0 0 1).
  left. vm_compute. reflexivity.
Defined.

(** The vector (400, 512) puts the block flush with the bottom right
    corner of the frame. *)
Lemma in_frame_motion_is_valid_witness :
  patch_in_frame 8 (mkFrame 240 352) 3 5 400 512 /\
  VALID_MOTION (mkBounds (-48) (-80) 401 593) 400 512 <> 0.
Proof.
  assert (Hin : patch_in_frame 8 (mkFrame 240 352) 3 5 400 512).
  { split; intros i Hi; unfold sample_lo, sample_hi, halfpel_pos;
      cbn [Fsize_y Fsize_x];
      (split; [apply Z.div_pos | apply Z.div_lt_upper_bound]; lia). }
  split; [exact Hin | ].
  apply (in_frame_motion_is_valid 8 (mkFrame 240 352) 3 5 1);
    [lia | reflexivity | exact Hin].
Defined.

Lemma bound_vectors_as_commented_witness :
  (VALID_MOTION (mkBounds (-48) (-80) 401 593)
     (leftMY (mkBounds (-48) (-80) 401 593))
     (leftMX (mkBounds (-48) (-80) 401 593)) <> 0 <->
   2 * 8 <= Fsize_y (mkFrame 240 352) /\ 2 * 8 <= Fsize_x (mkFrame 240 352)) /\
  (forall y x,
     VALID_MOTION (mkBounds (-48) (-80) 401 593)
       (rightMY (mkBounds (-48) (-80) 401 593)) x = 0 /\
     VALID_MOTION (mkBounds (-48) (-80) 401 593)
       y (rightMX (mkBounds (-48) (-80) 401 593)) = 0).
Proof.
  apply (bound_vectors_as_commented 8 (mkFrame 240 352) 3 5 1).
  reflexivity.
Defined.

(** Block row 29 of a 240-row frame starts on row 232 and does not fit;
    the zero vector is rejected there. *)
Lemma zero_motion_valid_iff_block_in_frame_witness :
  COMPUTE_MOTION_BOUNDARY 8 (mkFrame 240 352) 29 5 1
    = Some (mkBounds (-464) (-80) (-15) 593) /\
  (VALID_MOTION (mkBounds (-464) (-80) (-15) 593) 0 0 <> 0 <->
   0 <= 29 /\ 0 <= 5 /\
   (29 + 2) * 8 <= Fsize_y (mkFrame 240 352) /\
   (5 + 2) * 8 <= Fsize_x (mkFrame 240 352)).
Proof.
  split; [reflexivity | ].
  apply (zero_motion_valid_iff_block_in_frame 8 (mkFrame 240 352) 29 5 1);
    [lia | reflexivity].
Defined.

Lemma valid_motion_moves_with_block_witness :
  COMPUTE_MOTION_BOUNDARY 8 (mkFrame 240 352) 3 5 1
    = Some (mkBounds (-48) (-80) 401 593) /\
  COMPUTE_MOTION_BOUNDARY 8 (mkFrame 240 352) 4 6 1
    = Some (mkBounds (-64) (-96) 385 577) /\
  (VALID_MOTION (mkBounds (-48) (-80) 401 593) 400 (-80) <> 0 <->
   VALID_MOTION (mkBounds (-64) (-96) 385 577)
     (400 + 2 * 8 * (3 - 4)) (-80 + 2 * 8 * (5 - 6)) <> 0).
Proof.
  split; [reflexivity | split; [reflexivity | ]].
  apply (valid_motion_moves_with_block 8 (mkFrame 240 352) 3 5 4 6 1);
    reflexivity.
Defined.

Lemma coarse_and_fine_agree_on_even_vectors_witness :
  COMPUTE_MOTION_BOUNDARY 8 (mkFrame 240 352) 3 5 1
    = Some (mkBounds (-48) (-80) 401 593) /\
  COMPUTE_MOTION_BOUNDARY 8 (mkFrame 240 352) 3 5 2
    = Some (mkBounds (-48) (-80) 402 594) /\
  (VALID_MOTION (mkBounds (-48) (-80) 402 594) 400 592 <> 0 <->
   VALID_MOTION (mkBounds (-48) (-80) 401 593) 400 592 <> 0).
Proof.
  split; [reflexivity | split; [reflexivity | ]].
  apply (coarse_and_fine_agree_on_even_vectors 8 (mkFrame 240 352) 3 5);
    reflexivity.
Defined.

Lemma bound_parities_witness :
  Z.even (leftMY (mkBounds (-48) (-80) 402 594)) = true /\
  Z.even (leftMX (mkBounds (-48) (-80) 402 594)) = true /\
  Z.even (rightMY (mkBounds (-48) (-80) 402 594)) = (2 =? 2) /\
  Z.even (rightMX (mkBounds (-48) (-80) 402 594)) = (2 =? 2).
Proof.
  apply (bound_parities 8 (mkFrame 240 352) 3 5 2). reflexivity.
Defined.

Lemma valid_motion_monotone_in_frame_witness :
  COMPUTE_MOTION_BOUNDARY 8 (mkFrame 240 352) 3 5 1
    = Some (mkBounds (-48) (-80) 401 593) /\
  COMPUTE_MOTION_BOUNDARY 8 (mkFrame 480 640) 3 5 1
    = Some (mkBounds (-48) (-80) 881 1169) /\
  VALID_MOTION (mkBounds (-48) (-80) 401 593) 400 592 <> 0 /\
  VALID_MOTION (mkBounds (-48) (-80) 881 1169) 400 592 <> 0.
Proof.
  split; [reflexivity | split; [reflexivity | ]].
  split; [vm_compute; discriminate | ].
  apply (valid_motion_monotone_in_frame 8 (mkFrame 240 352) (mkFrame 480 640)
           3 5 1 (mkBounds (-48) (-80) 401 593));
    [simpl; lia | simpl; lia | reflexivity | reflexivity
    | vm_compute; discriminate].
Defined.

(** The odd vector (399, 591) is accepted at step size 2 and is not on
    the last half-pel position. *)
Lemma coarse_overacceptance_is_last_half_pel_witness :
  COMPUTE_MOTION_BOUNDARY 8 (mkFrame 240 352) 3 5 2
    = Some (mkBounds (-48) (-80) 402 594) /\
  VALID_MOTION (mkBounds (-48) (-80) 402 594) 399 591 <> 0 /\
  patch_in_frame 8 (mkFrame 240 352) 3 5 399 591.
Proof.
  split; [reflexivity | ].
  split; [vm_compute; discriminate | ].
  apply (coarse_overacceptance_is_last_half_pel 8 (mkFrame 240 352) 3 5
           (mkBounds (-48) (-80) 402 594));
    [reflexivity | vm_compute; discriminate | simpl; lia | simpl; lia].
Defined.

(** A frame of 8 rows is lower than the 16-row block. *)
Lemma no_vector_valid_in_small_frame_witness :
  COMPUTE_MOTION_BOUNDARY 8 (mkFrame 8 352) 0 5 2
    = Some (mkBounds 0 (-80) (-14) 594) /\
  VALID_MOTION (mkBounds 0 (-80) (-14) 594) 0 0 = 0.
Proof.
  split; [reflexivity | ].
  apply (no_vector_valid_in_small_frame 8 (mkFrame 8 352) 0 5 2);
    [reflexivity | left; simpl; lia].
Defined.
